(** * update_extract_import.py: a two-rule literal patcher for src/extract.js

  The script reads one file as UTF-8 text, applies two [str.replace]
  calls with fixed literals, writes the text back and prints one line.

  Part I models the script in four layers:
  - [StrReplace]: Python's [str.replace] and occurrence counting on
    lists over any type with decidable equality;
  - [Utf8]: the strict UTF-8 codec used by [open(..., encoding='utf-8')];
  - [TextIO]: text-mode newline handling, and the files and standard
    output of a run threaded through a small exception monad;
  - [Patcher]: the script itself.
  Part II proves facts about each layer and, in [PatcherFacts], the
  properties of the transformation and of a run. *)

From Stdlib Require Import NArith Ascii String List Lia Bool Arith.
From stdpp Require Import gmap strings list.

Local Open Scope nat_scope.

(** * Part I: the model *)

(** ** Python's [str.replace] on lists *)

Module StrReplace.
Section Generic.
Context {A : Type} `{EqDecision A}.

(** [t.startswith(p)] *)
Fixpoint starts_with (p t : list A) : bool :=
  match p, t with
  | [], _ => true
  | _ :: _, [] => false
  | a :: p', b :: t' => bool_decide (a = b) && starts_with p' t'
  end.

(** Number of indices [i] with [t[i:i+len(p)] == p]. *)
Fixpoint count (p t : list A) : nat :=
  (if starts_with p t then 1 else 0) +
  match t with
  | [] => 0
  | _ :: t' => count p t'
  end.

(** The scan behind [t.replace(old, new)] for a non-empty [old]: walk the
    text left to right; at an index where [old] starts, emit [new] and
    skip the rest of that occurrence ([skip] counts the characters still
    to drop), otherwise copy the character. *)
Fixpoint replace_from (old new : list A) (skip : nat) (t : list A) : list A :=
  match t with
  | [] => []
  | c :: t' =>
      match skip with
      | S k => replace_from old new k t'
      | O =>
          if starts_with old t
          then new ++ replace_from old new (length old - 1) t'
          else c :: replace_from old new 0 t'
      end
  end.

(** [t.replace(old, new)].  With an empty [old] Python puts [new] before
    every character and at the end. *)
Definition str_replace (old new t : list A) : list A :=
  match old with
  | [] => new ++ flat_map (fun c => c :: new) t
  | _ :: _ => replace_from old new 0 t
  end.

(** [old] occurs in [t] at index [i]. *)
Definition occurs_at (old t : list A) (i : nat) : Prop :=
  i + length old <= length t /\ firstn (length old) (skipn i t) = old.

(** The specification's wording of one replacement step: the text with
    every non-overlapping occurrence of [old], taken leftmost first,
    replaced by [new]; [n] is the number of occurrences replaced. *)
Inductive ReplacedAll (old new : list A) : list A -> nat -> list A -> Prop :=
| ReplacedAll_absent t :
    (forall i, ~ occurs_at old t i) ->
    ReplacedAll old new t 0 t
| ReplacedAll_first pre post n r :
    (forall j, j < length pre -> ~ occurs_at old (pre ++ old ++ post) j) ->
    ReplacedAll old new post n r ->
    ReplacedAll old new (pre ++ old ++ post) (S n) (pre ++ new ++ r).

(** Neither [q] nor a non-empty suffix of it can be laid over the start of
    [m]: the suffix is no prefix of [m] and [m] is no prefix of the suffix. *)
Fixpoint tails_apart (q m : list A) : bool :=
  match q with
  | [] => true
  | _ :: q' => negb (starts_with q m) && negb (starts_with m q) && tails_apart q' m
  end.

(** No non-empty suffix of [m] is a proper prefix of [p]. *)
Fixpoint heads_apart (p m : list A) : bool :=
  match m with
  | [] => true
  | _ :: m' =>
      negb (starts_with m p && (length m <? length p)) && heads_apart p m'
  end.

(** An occurrence of [p] in [x ++ m ++ y] lies inside [x], inside [m] or
    inside [y]: it cannot straddle an end of [m]. *)
Definition apart (p m : list A) : bool :=
  match p with
  | [] => false
  | _ :: p' => tails_apart p' m && heads_apart p m
  end.

End Generic.
End StrReplace.

(** ** The UTF-8 codec of [open(..., encoding='utf-8')]

  A file holds bytes ([ascii]); a Python [str] holds code points ([N]).
  The codec is strict: overlong forms, surrogates, values above
  U+10FFFF, stray continuation bytes and truncated sequences are
  rejected ([UnicodeDecodeError]), and surrogates cannot be encoded
  ([UnicodeEncodeError]). *)

Module Utf8.
Local Open Scope N_scope.

(** Payload of a continuation byte [10xxxxxx]. *)
Definition cont (b : ascii) : option N :=
  let v := N_of_ascii b in
  if (0x80 <=? v) && (v <? 0xC0) then Some (v - 0x80) else None.

Definition is_surrogate (cp : N) : bool := (0xD800 <=? cp) && (cp <=? 0xDFFF).

(** A decoded value is accepted when it needs the length it was written
    with ([lo] is the least value of that length) and is a scalar value. *)
Definition scalar (lo cp : N) : option N :=
  if (lo <=? cp) && (cp <=? 0x10FFFF) && negb (is_surrogate cp)
  then Some cp else None.

Fixpoint decode (bs : list ascii) : option (list N) :=
  match bs with
  | [] => Some []
  | b0 :: r0 =>
      let v0 := N_of_ascii b0 in
      if v0 <? 0x80 then cons v0 <$> decode r0
      else if v0 <? 0xC0 then None
      else if v0 <? 0xE0 then
        match r0 with
        | b1 :: r1 =>
            c1 ← cont b1;
            cp ← scalar 0x80 ((v0 - 0xC0) * 64 + c1);
            cons cp <$> decode r1
        | _ => None
        end
      else if v0 <? 0xF0 then
        match r0 with
        | b1 :: b2 :: r2 =>
            c1 ← cont b1; c2 ← cont b2;
            cp ← scalar 0x800 ((v0 - 0xE0) * 4096 + c1 * 64 + c2);
            cons cp <$> decode r2
        | _ => None
        end
      else if v0 <? 0xF8 then
        match r0 with
        | b1 :: b2 :: b3 :: r3 =>
            c1 ← cont b1; c2 ← cont b2; c3 ← cont b3;
            cp ← scalar 0x10000
                   ((v0 - 0xF0) * 262144 + c1 * 4096 + c2 * 64 + c3);
            cons cp <$> decode r3
        | _ => None
        end
      else None
  end.

Definition encode_cp (cp : N) : option (list ascii) :=
  if cp <? 0x80 then Some [ascii_of_N cp]
  else if cp <? 0x800 then
    Some [ascii_of_N (0xC0 + cp / 64); ascii_of_N (0x80 + cp mod 64)]
  else if cp <? 0x10000 then
    if is_surrogate cp then None
    else Some [ascii_of_N (0xE0 + cp / 4096);
               ascii_of_N (0x80 + (cp / 64) mod 64);
               ascii_of_N (0x80 + cp mod 64)]
  else if cp <? 0x110000 then
    Some [ascii_of_N (0xF0 + cp / 262144);
          ascii_of_N (0x80 + (cp / 4096) mod 64);
          ascii_of_N (0x80 + (cp / 64) mod 64);
          ascii_of_N (0x80 + cp mod 64)]
  else None.

Fixpoint encode (t : list N) : option (list ascii) :=
  match t with
  | [] => Some []
  | cp :: t' => bs ← encode_cp cp; rest ← encode t'; Some (bs ++ rest)
  end.

(** Code points a [str] read from a file can hold, and that can be
    written back. *)
Definition encodable (cp : N) : Prop := is_Some (encode_cp cp).

(** Linear arithmetic with division and remainder by constants. *)
Ltac div_lia := zify; Z.to_euclidean_division_equations; lia.

End Utf8.

(** ** Text-mode files

  [open(path, 'r', encoding='utf-8')] and [open(path, 'w', ...)] are
  called without [newline=], so reading translates every line ending
  (CR LF, CR or LF) to LF and writing turns LF into [os.linesep]. *)

Module TextIO.
Import StrReplace.

Definition LF : N := 10.
Definition CR : N := 13.

Inductive platform := Posix | Windows.

Definition linesep (os : platform) : list N :=
  match os with
  | Posix => [LF]
  | Windows => [CR; LF]
  end.

(** Universal newlines, applied to the decoded text by [f.read()]: with
    [newline=None], lines ending in CR LF, CR or LF are returned ending
    in LF. *)
Fixpoint universal_newlines (t : list N) : list N :=
  match t with
  | [] => []
  | c :: t' =>
      if decide (c = CR) then
        LF :: match t' with
              | c' :: t'' =>
                  if decide (c' = LF) then universal_newlines t''
                  else universal_newlines t'
              | [] => []
              end
      else c :: universal_newlines t'
  end.

(** With [newline=None], [f.write(s)] writes [s.replace(LF, os.linesep)]
    unless [os.linesep] is the line feed itself. *)
Definition translate_out (os : platform) (t : list N) : list N :=
  if decide (linesep os = [LF]) then t else str_replace [LF] (linesep os) t.

(** The text [f.read()] returns for a file holding [bs]. *)
Definition text_of_bytes (bs : list ascii) : option (list N) :=
  universal_newlines <$> Utf8.decode bs.

(** The bytes [f.write(t)] leaves in the file. *)
Definition bytes_of_text (os : platform) (t : list N) : option (list ascii) :=
  Utf8.encode (translate_out os t).

(** *** The interpreter state and its exceptions *)

Inductive exn := FileNotFoundError | UnicodeDecodeError | UnicodeEncodeError.

Record world := World {
  os : platform;
  files : gmap string (list ascii);
  stdout : list N;
}.

(** A statement either completes with a value or raises; the state is
    threaded through both. *)
Definition Py (A : Type) : Type := world -> (A + exn) * world.

#[export] Instance Py_ret : MRet Py := fun A (a : A) w => (inl a, w).

#[export] Instance Py_bind : MBind Py := fun A B (k : A -> Py B) (m : Py A) w =>
  match m w with
  | (inl a, w') => k a w'
  | (inr e, w') => (inr e, w')
  end.

Definition set_file (p : string) (bs : list ascii) (w : world) : world :=
  World (os w) (<[p := bs]> (files w)) (stdout w).

(** [with open(p, 'r', encoding='utf-8') as f: return f.read()] *)
Definition read_file (p : string) : Py (list N) :=
  fun w =>
    match files w !! p with
    | None => (inr FileNotFoundError, w)
    | Some bs =>
        match text_of_bytes bs with
        | None => (inr UnicodeDecodeError, w)
        | Some t => (inl t, w)
        end
    end.

(** [with open(p, 'w', encoding='utf-8') as f: f.write(t)].  Opening
    creates or truncates the file before anything is encoded. *)
Definition write_file (p : string) (t : list N) : Py unit :=
  fun w =>
    match bytes_of_text (os w) t with
    | None => (inr UnicodeEncodeError, set_file p [] w)
    | Some bs => (inl tt, set_file p bs w)
    end.

(** [print(s)] *)
Definition print (s : list N) : Py unit :=
  fun w => (inl tt, World (os w) (files w) (stdout w ++ s ++ [LF])).

(** Exit status of the interpreter: 0 at the end of the script, 1 after
    an uncaught exception. *)
Definition exit_code {A} (r : A + exn) : N :=
  match r with
  | inl _ => 0
  | inr _ => 1
  end%N.

(** Characters of a text that came out of [f.read()]: they can be encoded
    and none is a carriage return. *)
Definition plain (c : N) : Prop := Utf8.encodable c /\ c <> CR.

#[export] Instance plain_dec c : Decision (plain c).
Proof. unfold plain, Utf8.encodable. apply _. Defined.

End TextIO.

(** ** The script's literals *)

(** The literals are ASCII: each character is its own code point. *)
Definition text_of_string (s : string) : list N :=
  map N_of_ascii (list_ascii_of_string s).

Module Literals.
Local Open Scope string_scope.

(** The escape [\n] of the Python literals. *)
Definition nl : string := String "010" EmptyString.

Definition path : string := "src/extract.js".

Definition import_old : string :=
  "import { searchConfig } from './search-config.js';".
Definition import_new : string :=
  "import { getSearchConfig } from './search-config.js';".

Definition usage_old : string :=
  "    // Build the Autotrader search URL with parameters" ++ nl ++
  "    // Based on actual Autotrader URL format from user's search" ++ nl ++
  "    const searchParams = new URLSearchParams(searchConfig);".
Definition usage_new : string :=
  "    // Build the Autotrader search URL with parameters" ++ nl ++
  "    // Based on actual Autotrader URL format from user's search" ++ nl ++
  "    const searchConfig = getSearchConfig();" ++ nl ++
  "    const searchParams = new URLSearchParams(searchConfig);".

Definition message : string := "Updated extract.js to use getSearchConfig()".

(** The lines the usage literals are made of. *)
Definition comment_lines : string :=
  "    // Build the Autotrader search URL with parameters" ++ nl ++
  "    // Based on actual Autotrader URL format from user's search" ++ nl.
Definition config_line : string :=
  "    const searchConfig = getSearchConfig();".
Definition url_line : string :=
  "    const searchParams = new URLSearchParams(searchConfig);".

End Literals.

(** ** The script *)

Module Patcher.
Import StrReplace TextIO.

Definition path : string := Literals.path.
Definition import_old : list N := text_of_string Literals.import_old.
Definition import_new : list N := text_of_string Literals.import_new.
Definition usage_old : list N := text_of_string Literals.usage_old.
Definition usage_new : list N := text_of_string Literals.usage_new.
Definition message : list N := text_of_string Literals.message.

(** The two [content = content.replace(...)] statements. *)
Definition transform (content : list N) : list N :=
  let content := str_replace import_old import_new content in
  let content := str_replace usage_old usage_new content in
  content.

(** The whole script. *)
Definition main : Py unit :=
  content ← read_file path;
  write_file path (transform content);;
  print message.

(** One run of the script as a process: it starts with an empty standard
    output, on platform [o], with the files [fs]. *)
Definition run (o : platform) (fs : gmap string (list ascii)) : (unit + exn) * world :=
  main (World o fs []).

(** The four literals of the two rules. *)
Definition literals : list (list N) :=
  [import_old; import_new; usage_old; usage_new].

(** [literal] shows that a literal is one of the four, [literal_cases H]
    takes them one by one, and [literal_count H p m v] records in [H] how
    often the literal [p] occurs in the literal [m]: once in itself, never in
    another one. *)
Ltac literal := unfold literals; repeat constructor.

Ltac literal_cases H :=
  unfold literals in H;
  repeat (apply elem_of_cons in H as [->|H]); [..|by apply elem_of_nil in H].

Ltac literal_count H p m v :=
  replace (count p m) with v in H by (vm_compute; reflexivity).

(** The lines of the usage block as texts. *)
Definition comment_lines : list N := text_of_string Literals.comment_lines.
Definition config_line : list N := text_of_string Literals.config_line.
Definition url_line : list N := text_of_string Literals.url_line.

(** What a run leaves at the target path, as the text a later read would
    return. *)
Definition target_text (w : world) : option (list N) :=
  files w !! path ≫= text_of_bytes.

(** *** Files to run the script on *)

Definition file_of (content : string) : gmap string (list ascii) :=
  {[ path := list_ascii_of_string content ]}.

(** An unpatched file: the old import line and the old usage block. *)
Definition unpatched : string :=
  (Literals.import_old ++ Literals.nl ++ Literals.usage_old)%string.

(** A file that imports both names. *)
Definition both_imports : string :=
  (Literals.import_new ++ Literals.nl ++ Literals.import_old)%string.

(** A file with a patched usage block followed by an unpatched one. *)
Definition both_usages : string :=
  (Literals.usage_new ++ Literals.nl ++ Literals.usage_old)%string.

(** A file with neither literal and the line ending CR LF. *)
Definition crlf_note : string :=
  String "h" (String "i" (String "013" (String "010" (String "!" EmptyString)))).

(** A file with neither literal and no carriage return. *)
Definition lf_note : string :=
  String "h" (String "i" (String "010" (String "!" EmptyString))).

(** A file that is not UTF-8: the single byte FF. *)
Definition latin1_note : string := String "255" EmptyString.

(** The scenario of the specification, its intervening text being the three
    dots between two line ends. *)
Definition dots : string :=
  (Literals.nl ++ "..." ++ Literals.nl)%string.
Definition scenario : string :=
  (Literals.import_old ++ dots ++ Literals.url_line)%string.

End Patcher.

(** * Part II: proofs *)

(** ** Facts about [str_replace] *)

Module StrReplaceFacts.
Import StrReplace.
Section Generic.
Context {A : Type} `{EqDecision A}.

(** *** Prefix tests *)

Lemma starts_with_app (p r : list A) : starts_with p (p ++ r) = true.
Proof.
  induction p as [|a p IH]; simpl; [done|].
  by rewrite bool_decide_eq_true_2, IH.
Qed.

Lemma starts_with_inv (p t : list A) :
  starts_with p t = true -> exists r, t = p ++ r.
Proof.
  revert t; induction p as [|a p IH]; intros t H; simpl in *.
  - by exists t.
  - destruct t as [|b t]; [done|].
    apply andb_true_iff in H as [Hab H].
    apply bool_decide_eq_true_1 in Hab as ->.
    destruct (IH _ H) as [r ->]. by exists r.
Qed.

Lemma starts_with_iff (p t : list A) :
  starts_with p t = true <-> exists r, t = p ++ r.
Proof.
  split; [apply starts_with_inv|].
  intros [r ->]. apply starts_with_app.
Qed.

Lemma starts_with_length (p t : list A) :
  starts_with p t = true -> length p <= length t.
Proof.
  intros [r ->]%starts_with_inv. rewrite length_app. lia.
Qed.

Lemma starts_with_firstn (p t : list A) :
  starts_with p t = true <-> length p <= length t /\ firstn (length p) t = p.
Proof.
  split.
  - intros H. split; [by apply starts_with_length|].
    apply starts_with_inv in H as [r ->].
    by rewrite take_app_length.
  - intros [_ H]. apply starts_with_iff.
    exists (skipn (length p) t). by rewrite <- H at 1; rewrite take_drop.
Qed.

Lemma starts_with_weaken (p s y : list A) :
  starts_with p s = true -> starts_with p (s ++ y) = true.
Proof.
  intros [r ->]%starts_with_inv. rewrite <- app_assoc. apply starts_with_app.
Qed.

(** A prefix of [m ++ y] is a prefix of [m], or [m] is a proper prefix
    of it. *)
Lemma starts_with_app_cases (q m y : list A) :
  starts_with q (m ++ y) = true ->
  starts_with q m = true \/
  (starts_with m q = true /\ length m < length q).
Proof.
  revert m; induction q as [|a q IH]; intros m H; [by left|].
  destruct m as [|b m]; [right; simpl; split; [done|lia]|].
  simpl in *. apply andb_true_iff in H as [Hab H].
  apply bool_decide_eq_true_1 in Hab as ->.
  rewrite !bool_decide_eq_true_2 by done. simpl.
  destruct (IH _ H) as [?|[? ?]]; [by left|right; split; [done|lia]].
Qed.

Lemma occurs_at_starts_with (old t : list A) (i : nat) :
  occurs_at old t i <-> i <= length t /\ starts_with old (skipn i t) = true.
Proof.
  unfold occurs_at. rewrite starts_with_firstn, length_drop. split.
  - intros [? ?]. repeat split; [lia|lia|done].
  - intros [? [? ?]]. split; [lia|done].
Qed.

Lemma occurs_at_0 (old t : list A) :
  occurs_at old t 0 <-> starts_with old t = true.
Proof.
  rewrite occurs_at_starts_with. simpl. split; [tauto|]. split; [lia|done].
Qed.

Lemma occurs_at_S (old : list A) c t i :
  occurs_at old (c :: t) (S i) <-> occurs_at old t i.
Proof. rewrite !occurs_at_starts_with. simpl. split; intros [? ?]; split; (lia || done). Qed.

(** *** Counting occurrences *)

Lemma count_cons (p : list A) c t :
  count p (c :: t) = (if starts_with p (c :: t) then 1 else 0) + count p t.
Proof. done. Qed.

Lemma count_nil (p : list A) : p <> [] -> count p [] = 0.
Proof. by destruct p. Qed.

Lemma count_zero_iff (p t : list A) :
  count p t = 0 <-> forall i, ~ occurs_at p t i.
Proof.
  induction t as [|c t IH].
  - simpl. split.
    + intros H i [Hi Hs]%occurs_at_starts_with.
      simpl in Hi. assert (i = 0) as -> by lia. simpl in Hs.
      rewrite Hs in H. lia.
    + intros H. destruct (starts_with p []) eqn:E; [|done].
      exfalso. by apply (H 0), occurs_at_0.
  - rewrite count_cons. split.
    + intros H [|i].
      * rewrite occurs_at_0. destruct (starts_with p (c :: t)); [lia|done].
      * rewrite occurs_at_S. apply IH. lia.
    + intros H. destruct (starts_with p (c :: t)) eqn:E.
      * exfalso. by apply (H 0), occurs_at_0.
      * simpl. apply IH. intros i Hi. by apply (H (S i)), occurs_at_S.
Qed.

Lemma count_short (p t : list A) : length t < length p -> count p t = 0.
Proof.
  intros H. apply count_zero_iff. intros i [Hi _]. lia.
Qed.

Lemma count_self (p : list A) : p <> [] -> count p p = 1.
Proof.
  destruct p as [|a p]; [done|]. intros _.
  assert (starts_with (a :: p) (a :: p) = true) as E.
  { apply starts_with_iff. exists []. by rewrite app_nil_r. }
  rewrite count_cons, E, count_short; [done|simpl; lia].
Qed.

Lemma tails_apart_starts_with (q m s y : list A) :
  tails_apart q m = true ->
  starts_with q (s ++ m ++ y) = starts_with q s.
Proof.
  revert s; induction q as [|a q IH]; intros s H; [done|].
  cbn [tails_apart] in H. apply andb_true_iff in H as [H Hq].
  apply andb_true_iff in H as [H1 H2].
  apply negb_true_iff in H1, H2.
  destruct s as [|b s].
  - simpl app. destruct (starts_with (a :: q) (m ++ y)) eqn:E; [|done].
    apply starts_with_app_cases in E as [E|[E _]]; congruence.
  - simpl. by rewrite IH.
Qed.

Lemma heads_apart_starts_with (p m y : list A) :
  m <> [] ->
  negb (starts_with m p && (length m <? length p)) = true ->
  starts_with p (m ++ y) = starts_with p m.
Proof.
  intros Hm H. apply negb_true_iff, andb_false_iff in H.
  destruct (starts_with p (m ++ y)) eqn:E.
  - apply starts_with_app_cases in E as [E|[E1 E2]]; [done|].
    apply Nat.ltb_lt in E2. destruct H; congruence.
  - destruct (starts_with p m) eqn:E'; [|done].
    apply (starts_with_weaken _ _ y) in E'. congruence.
Qed.

Lemma count_app_l (p x m y : list A) :
  p <> [] ->
  tails_apart (tail p) m = true ->
  count p (x ++ m ++ y) = count p x + count p (m ++ y).
Proof.
  intros Hp H. induction x as [|b x IH].
  - by rewrite count_nil.
  - change ((b :: x) ++ m ++ y) with (b :: (x ++ m ++ y)).
    rewrite !count_cons, IH.
    destruct p as [|a p]; [done|]. simpl tail in H. simpl starts_with.
    rewrite (tails_apart_starts_with _ _ _ _ H). lia.
Qed.

Lemma count_app_r (p m y : list A) :
  p <> [] ->
  heads_apart p m = true ->
  count p (m ++ y) = count p m + count p y.
Proof.
  intros Hp. induction m as [|b m IH]; intros H.
  - by rewrite count_nil.
  - cbn [heads_apart] in H. apply andb_true_iff in H as [H1 H2].
    change ((b :: m) ++ y) with (b :: (m ++ y)).
    rewrite !count_cons, IH by done.
    change (b :: (m ++ y)) with ((b :: m) ++ y).
    rewrite (heads_apart_starts_with p (b :: m) y) by done. lia.
Qed.

(** Occurrences of [p] in [x ++ m ++ y] when [p] cannot straddle an end
    of [m]. *)
Lemma count_app3 (p m x y : list A) :
  apart p m = true ->
  count p (x ++ m ++ y) = count p x + count p m + count p y.
Proof.
  destruct p as [|a p]; [done|]. intros [H1 H2]%andb_true_iff.
  rewrite count_app_l, count_app_r by done. lia.
Qed.

(** *** The scan finds the leftmost occurrences *)

Lemma str_replace_nonempty (old new t : list A) :
  old <> [] -> str_replace old new t = replace_from old new 0 t.
Proof. by destruct old. Qed.

Lemma replace_from_skip (old new : list A) k t :
  replace_from old new k t = replace_from old new 0 (skipn k t).
Proof.
  revert k; induction t as [|c t IH]; intros [|k]; simpl; auto.
Qed.

Lemma replace_from_hit (old new t : list A) :
  old <> [] -> starts_with old t = true ->
  replace_from old new 0 t = new ++ replace_from old new 0 (skipn (length old) t).
Proof.
  intros Hold H. destruct t as [|c t]; [by destruct old|].
  cbn [replace_from]. rewrite H, replace_from_skip.
  destruct old as [|a old]; [done|].
  simpl. by rewrite Nat.sub_0_r.
Qed.

Lemma replace_from_miss (old new : list A) c t :
  starts_with old (c :: t) = false ->
  replace_from old new 0 (c :: t) = c :: replace_from old new 0 t.
Proof. intros H. cbn [replace_from]. by rewrite H. Qed.

Lemma replace_from_absent (old new t : list A) :
  (forall i, ~ occurs_at old t i) -> replace_from old new 0 t = t.
Proof.
  induction t as [|c t IH]; intros H; [done|].
  rewrite replace_from_miss.
  - f_equal. apply IH. intros i Hi. by apply (H (S i)), occurs_at_S.
  - apply not_true_is_false. intros E. by apply (H 0), occurs_at_0.
Qed.

Lemma replace_from_first (old new pre post : list A) :
  old <> [] ->
  (forall j, j < length pre -> ~ occurs_at old (pre ++ old ++ post) j) ->
  replace_from old new 0 (pre ++ old ++ post) =
  pre ++ new ++ replace_from old new 0 post.
Proof.
  intros Hold. induction pre as [|c pre IH]; intros H.
  - simpl app. rewrite replace_from_hit by (done || apply starts_with_app).
    by rewrite drop_app_length.
  - change ((c :: pre) ++ old ++ post) with (c :: (pre ++ old ++ post)) in *.
    rewrite replace_from_miss.
    + simpl. f_equal. apply IH. intros j Hj Hocc.
      apply (H (S j)); [simpl; lia|]. by apply occurs_at_S.
    + apply not_true_is_false. intros E.
      apply (H 0); [simpl; lia|]. by apply occurs_at_0.
Qed.

(** Either [old] does not occur, or the text splits at its leftmost
    occurrence. *)
Lemma first_occurrence (old t : list A) :
  (forall i, ~ occurs_at old t i) \/
  exists pre post, t = pre ++ old ++ post /\
    forall j, j < length pre -> ~ occurs_at old t j.
Proof.
  induction t as [|c t IH].
  - destruct (starts_with old []) eqn:E.
    + right. apply starts_with_inv in E as [r E].
      exists [], r. split; [done|]. simpl. lia.
    + left. intros i [Hi Hs]%occurs_at_starts_with.
      simpl in Hi. assert (i = 0) as -> by lia. simpl in Hs. congruence.
  - destruct (starts_with old (c :: t)) eqn:E.
    + right. apply starts_with_inv in E as [r E].
      exists [], r. split; [done|]. simpl. lia.
    + destruct IH as [IH|(pre & post & -> & IH)].
      * left. intros [|i]; [rewrite occurs_at_0; congruence|].
        rewrite occurs_at_S. apply IH.
      * right. exists (c :: pre), post. split; [done|].
        intros [|j] Hj; [rewrite occurs_at_0; congruence|].
        rewrite occurs_at_S. apply IH. simpl in Hj. lia.
Qed.

(** [str_replace] meets the specification's wording ... *)
Lemma str_replace_spec (old new t : list A) :
  old <> [] -> exists n, ReplacedAll old new t n (str_replace old new t).
Proof.
  intros Hold. rewrite str_replace_nonempty by done.
  remember (length t) as k eqn:Hk. revert t Hk.
  induction k as [k IH] using lt_wf_ind. intros t ->.
  destruct (first_occurrence old t) as [H|(pre & post & -> & H)].
  - exists 0. rewrite replace_from_absent by done. by constructor.
  - destruct (IH (length post)) with (t := post) as [n Hn]; [|done|].
    { rewrite !length_app. destruct old; [done|simpl; lia]. }
    exists (S n). rewrite replace_from_first by done. by constructor.
Qed.

(** ... and is the only text that does. *)
Lemma ReplacedAll_str_replace (old new t r : list A) n :
  old <> [] -> ReplacedAll old new t n r -> r = str_replace old new t.
Proof.
  intros Hold. rewrite str_replace_nonempty by done.
  induction 1 as [t H|pre post n r H _ IH].
  - by rewrite replace_from_absent.
  - rewrite replace_from_first by done. by rewrite IH.
Qed.

Lemma ReplacedAll_length (old new t r : list A) n :
  ReplacedAll old new t n r ->
  length r + n * length old = length t + n * length new.
Proof.
  induction 1 as [t H|pre post n r H _ IH]; [done|].
  rewrite !length_app. lia.
Qed.

Lemma ReplacedAll_count (p old new t r : list A) n :
  apart p old = true -> apart p new = true ->
  ReplacedAll old new t n r ->
  count p r + n * count p old = count p t + n * count p new.
Proof.
  intros Ho Hn. induction 1 as [t H|pre post n r H _ IH]; [done|].
  rewrite !count_app3 by done. lia.
Qed.

Lemma occurs_at_weaken (old pre rest : list A) j :
  occurs_at old pre j -> occurs_at old (pre ++ rest) j.
Proof.
  rewrite !occurs_at_starts_with. intros [Hj H]. rewrite length_app.
  split; [lia|]. rewrite drop_app_le by done. by apply starts_with_weaken.
Qed.

(** For a literal that cannot overlap itself the number of replacements
    is the number of occurrences. *)
Lemma ReplacedAll_n (old new t r : list A) n :
  apart old old = true -> ReplacedAll old new t n r -> n = count old t.
Proof.
  intros Ho. assert (old <> []) as Hold by (by destruct old).
  induction 1 as [t H|pre post n r H _ IH].
  - symmetry. by apply count_zero_iff.
  - rewrite count_app3, count_self, <- IH by done.
    assert (count old pre = 0) as ->; [|lia].
    apply count_zero_iff. intros j Hj.
    apply (H j); [|by apply occurs_at_weaken].
    destruct Hj as [Hj _]. destruct old; [done|simpl in Hj; lia].
Qed.

(** *** Consequences for [str_replace] *)

Lemma str_replace_absent (old new t : list A) :
  count old t = 0 -> str_replace old new t = t.
Proof.
  intros H. destruct old as [|a old]; [by destruct t|].
  apply replace_from_absent. by apply count_zero_iff.
Qed.

Lemma str_replace_count (p old new t : list A) :
  apart old old = true -> apart p old = true -> apart p new = true ->
  count p (str_replace old new t) + count old t * count p old =
  count p t + count old t * count p new.
Proof.
  intros Hoo Ho Hn. assert (old <> []) as Hold by (by destruct old).
  destruct (str_replace_spec old new t Hold) as [n H].
  rewrite <- (ReplacedAll_n _ _ _ _ _ Hoo H).
  by apply ReplacedAll_count.
Qed.

Lemma str_replace_length (old new t : list A) :
  old <> [] -> length old <= length new ->
  length t <= length (str_replace old new t).
Proof.
  intros Hold Hlen. destruct (str_replace_spec old new t Hold) as [n H].
  apply ReplacedAll_length in H. nia.
Qed.

Lemma replace_from_Forall (P : A -> Prop) (old new t : list A) k :
  Forall P new -> Forall P t -> Forall P (replace_from old new k t).
Proof.
  intros Hnew Ht. revert k. induction Ht as [|c t Hc Ht IH]; intros k; [done|].
  cbn [replace_from]. destruct k; [|done].
  destruct (starts_with old (c :: t)).
  - apply Forall_app. by split.
  - by constructor.
Qed.

Lemma str_replace_Forall (P : A -> Prop) (old new t : list A) :
  Forall P new -> Forall P t -> Forall P (str_replace old new t).
Proof.
  intros Hnew Ht. destruct old; [|by apply replace_from_Forall].
  simpl. apply Forall_app. split; [done|].
  induction Ht; simpl; [done|]. constructor; [done|].
  apply Forall_app. by split.
Qed.

(** With no occurrence in [pre], and [p] unable to straddle the start of
[m], no occurrence within [pre ++ m ++ post] starts inside [pre]. *)
Lemma no_occurrence_before (p m pre post : list A) :
  p <> [] -> tails_apart (tail p) m = true -> count p pre = 0 ->
  forall j, j < length pre -> ~ occurs_at p (pre ++ m ++ post) j.
Proof.
  intros Hp Hm. induction pre as [|c pre IH]; intros Hpre j Hj; [simpl in Hj; lia|].
  rewrite count_cons in Hpre.
  change ((c :: pre) ++ m ++ post) with (c :: (pre ++ m ++ post)).
  destruct j as [|j].
  - rewrite occurs_at_0. change (c :: (pre ++ m ++ post)) with ((c :: pre) ++ m ++ post).
    destruct p as [|a p]; [done|]. simpl tail in Hm. simpl starts_with.
    rewrite (tails_apart_starts_with _ _ _ _ Hm).
    change (starts_with (a :: p) (c :: pre) <> true).
    destruct (starts_with (a :: p) (c :: pre)); [lia|done].
  - rewrite occurs_at_S. apply IH; [lia|simpl in Hj; lia].
Qed.


(** *** Replacing around a block the literal keeps clear of *)

Lemma count_before_first (old pre post : list A) :
  old <> [] ->
  (forall j, j < length pre -> ~ occurs_at old (pre ++ old ++ post) j) ->
  count old pre = 0.
Proof.
  intros Hold H. apply count_zero_iff. intros j Hj.
  apply (H j); [|by apply occurs_at_weaken].
  destruct Hj as [Hj _]. destruct old; [done|simpl in Hj; lia].
Qed.

(** The leftmost occurrence is replaced and the scan goes on behind it. *)
Lemma str_replace_at_first (old new pre post : list A) :
  apart old old = true -> count old pre = 0 ->
  str_replace old new (pre ++ old ++ post) =
  pre ++ new ++ str_replace old new post.
Proof.
  intros Ho Hpre. assert (old <> []) as Hold by (by destruct old).
  rewrite !str_replace_nonempty by done.
  apply replace_from_first; [done|].
  apply no_occurrence_before; [done| |done].
  destruct old as [|a old]; [done|]. by apply andb_true_iff in Ho as [? _].
Qed.

(** A block [m] that [old] neither occurs in nor can straddle splits the
    replacement in two. *)
Lemma str_replace_app3 (old new m x y : list A) :
  apart old old = true -> apart old m = true -> count old m = 0 ->
  str_replace old new (x ++ m ++ y) =
  str_replace old new x ++ m ++ str_replace old new y.
Proof.
  intros Ho Hm Hcm. assert (old <> []) as Hold by (by destruct old).
  remember (length x) as k eqn:Hk. revert x Hk.
  induction k as [k IH] using lt_wf_ind. intros x ->.
  destruct (first_occurrence old x) as [Hx|(pre & post & -> & Hx)].
  - apply count_zero_iff in Hx. rewrite (str_replace_absent old new x) by done.
    destruct (first_occurrence old y) as [Hy|(pre & post & -> & Hy)].
    + apply count_zero_iff in Hy. rewrite (str_replace_absent old new y) by done.
      apply str_replace_absent. rewrite count_app3 by done. lia.
    + apply count_before_first in Hy; [|done].
      rewrite (str_replace_at_first old new pre post) by done.
      replace (x ++ m ++ pre ++ old ++ post)
        with ((x ++ m ++ pre) ++ old ++ post) by (by rewrite <- !app_assoc).
      rewrite str_replace_at_first; [by rewrite <- !app_assoc|done|].
      rewrite count_app3 by done. lia.
  - apply count_before_first in Hx; [|done].
    rewrite <- !app_assoc.
    rewrite !(str_replace_at_first old new pre) by done.
    rewrite (IH (length post)); [by rewrite <- !app_assoc| |done].
    rewrite !length_app. destruct old; [done|simpl; lia].
Qed.

(** The exact change of length: one difference of the literals' lengths per
    occurrence. *)
Lemma str_replace_length_exact (old new t : list A) :
  apart old old = true ->
  length (str_replace old new t) + count old t * length old =
  length t + count old t * length new.
Proof.
  intros Ho. assert (old <> []) as Hold by (by destruct old).
  destruct (str_replace_spec old new t Hold) as [n H].
  rewrite <- (ReplacedAll_n _ _ _ _ _ Ho H). by apply ReplacedAll_length.
Qed.

End Generic.

(** Python: ['aaa'.replace('aa', 'b') == 'ba'],
    ['ab'.replace('', '-') == '-a-b-'], and the index count of ['aa'] in
    ['aaa'] is 2. *)
Example replace_overlapping : str_replace [1; 1] [2] [1; 1; 1] = [2; 1].
Proof. reflexivity. Qed.

Example replace_empty_old : str_replace [] [0] [1; 2] = [0; 1; 0; 2; 0].
Proof. reflexivity. Qed.

Example count_overlapping : count [1; 1] [1; 1; 1] = 2.
Proof. reflexivity. Qed.

End StrReplaceFacts.

(** ** The codec round trips *)

Module Utf8Facts.
Import Utf8.
Local Open Scope N_scope.

Lemma cont_Some b c :
  cont b = Some c <-> (0x80 <= N_of_ascii b < 0xC0 /\ c = N_of_ascii b - 0x80).
Proof.
  unfold cont. case N.leb_spec; intros H1; [case N.ltb_spec; intros H2|]; simpl.
  - split; [intros [= <-]; lia|by intros [_ ->]].
  - split; [done|lia].
  - split; [done|lia].
Qed.

Lemma scalar_Some lo cp c :
  scalar lo cp = Some c <->
  (c = cp /\ lo <= cp <= 0x10FFFF /\ ~ (0xD800 <= cp <= 0xDFFF)).
Proof.
  unfold scalar, is_surrogate.
  destruct (N.leb_spec lo cp), (N.leb_spec cp 0x10FFFF),
    (N.leb_spec 0xD800 cp), (N.leb_spec cp 0xDFFF); simpl;
    (split; [intros [= <-]; lia || done | intros (-> & ? & ?); done || lia]).
Qed.

Lemma byte_of_val (b : ascii) v : N_of_ascii b = v -> ascii_of_N v = b.
Proof. intros <-. apply ascii_N_embedding. Qed.

Lemma val_of_byte v : v < 256 -> N_of_ascii (ascii_of_N v) = v.
Proof. apply N_ascii_embedding. Qed.

(** Decoding inverts encoding: the bytes of a decoded text are the bytes
    that were read. *)
Lemma encode_decode (bs : list ascii) (t : list N) :
  decode bs = Some t -> encode t = Some bs.
Proof.
  remember (length bs) as k eqn:Hk. revert bs t Hk.
  induction k as [k IH] using lt_wf_ind. intros bs t -> H.
  destruct bs as [|b0 r0]; [by injection H as <-|].
  cbn [decode] in H. pose proof (N_ascii_bounded b0) as Hb0.
  remember (N_of_ascii b0) as v0 eqn:Hv0. symmetry in Hv0.
  apply byte_of_val in Hv0 as <-.
  destruct (N.ltb_spec v0 0x80) as [L1|L1].
  { (* one byte *)
    apply fmap_Some in H as (t' & Ht' & ->).
    apply (IH (length r0)) in Ht'; [|simpl; lia|done].
    cbn [encode]. unfold encode_cp.
    case N.ltb_spec; [intros _|lia]. by rewrite Ht'. }
  destruct (N.ltb_spec v0 0xC0) as [L2|L2]; [done|].
  destruct (N.ltb_spec v0 0xE0) as [L3|L3].
  { (* two bytes *)
    destruct r0 as [|b1 r1]; [done|].
    apply bind_Some in H as (c1 & [Hc1 ->]%cont_Some & H).
    apply bind_Some in H as (cp & (-> & Hcp & _)%scalar_Some & H).
    apply fmap_Some in H as (t' & Ht' & ->).
    apply (IH (length r1)) in Ht'; [|simpl; lia|done].
    cbn [encode]. rewrite Ht'. unfold encode_cp.
    repeat (case N.ltb_spec; [try (intros; div_lia)|try (intros; div_lia)]).
    intros _ _. simpl. do 2 f_equal; [|f_equal].
    - f_equal. div_lia.
    - apply byte_of_val. div_lia. }
  destruct (N.ltb_spec v0 0xF0) as [L4|L4].
  { (* three bytes *)
    destruct r0 as [|b1 [|b2 r2]]; [done..|].
    apply bind_Some in H as (c1 & [Hc1 ->]%cont_Some & H).
    apply bind_Some in H as (c2 & [Hc2 ->]%cont_Some & H).
    apply bind_Some in H as (cp & (-> & Hcp & Hsur)%scalar_Some & H).
    apply fmap_Some in H as (t' & Ht' & ->).
    apply (IH (length r2)) in Ht'; [|simpl; lia|done].
    cbn [encode]. rewrite Ht'. unfold encode_cp, is_surrogate.
    repeat (case N.ltb_spec; [try (intros; div_lia)|try (intros; div_lia)]).
    intros _ _ _.
    destruct (N.leb_spec 0xD800
                ((v0 - 0xE0) * 4096 + (N_of_ascii b1 - 0x80) * 64 +
                 (N_of_ascii b2 - 0x80))),
             (N.leb_spec ((v0 - 0xE0) * 4096 + (N_of_ascii b1 - 0x80) * 64 +
                 (N_of_ascii b2 - 0x80)) 0xDFFF); try lia;
    (simpl; do 2 f_equal; [|f_equal; [|f_equal]];
      [f_equal; div_lia|apply byte_of_val; div_lia..]). }
  destruct (N.ltb_spec v0 0xF8) as [L5|L5]; [|done].
  (* four bytes *)
  destruct r0 as [|b1 [|b2 [|b3 r3]]]; [done..|].
  apply bind_Some in H as (c1 & [Hc1 ->]%cont_Some & H).
  apply bind_Some in H as (c2 & [Hc2 ->]%cont_Some & H).
  apply bind_Some in H as (c3 & [Hc3 ->]%cont_Some & H).
  apply bind_Some in H as (cp & (-> & Hcp & _)%scalar_Some & H).
  apply fmap_Some in H as (t' & Ht' & ->).
  apply (IH (length r3)) in Ht'; [|simpl; lia|done].
  cbn [encode]. rewrite Ht'. unfold encode_cp.
  repeat (case N.ltb_spec; [try (intros; div_lia)|try (intros; div_lia)]).
  intros _ _ _ _. simpl. do 2 f_equal; [|f_equal; [|f_equal; [|f_equal]]];
    [f_equal; div_lia|apply byte_of_val; div_lia..].
Qed.

Lemma cont_byte x : x < 64 -> cont (ascii_of_N (0x80 + x)) = Some x.
Proof.
  intros Hx. apply cont_Some. rewrite val_of_byte by lia. lia.
Qed.

Lemma scalar_id lo cp :
  lo <= cp <= 0x10FFFF -> ~ (0xD800 <= cp <= 0xDFFF) -> scalar lo cp = Some cp.
Proof. intros. by apply scalar_Some. Qed.

Lemma decode_cons b0 r0 :
  decode (b0 :: r0) =
  let v0 := N_of_ascii b0 in
  if v0 <? 0x80 then cons v0 <$> decode r0
  else if v0 <? 0xC0 then None
  else if v0 <? 0xE0 then
    match r0 with
    | b1 :: r1 =>
        c1 ← cont b1;
        cp ← scalar 0x80 ((v0 - 0xC0) * 64 + c1);
        cons cp <$> decode r1
    | _ => None
    end
  else if v0 <? 0xF0 then
    match r0 with
    | b1 :: b2 :: r2 =>
        c1 ← cont b1; c2 ← cont b2;
        cp ← scalar 0x800 ((v0 - 0xE0) * 4096 + c1 * 64 + c2);
        cons cp <$> decode r2
    | _ => None
    end
  else if v0 <? 0xF8 then
    match r0 with
    | b1 :: b2 :: b3 :: r3 =>
        c1 ← cont b1; c2 ← cont b2; c3 ← cont b3;
        cp ← scalar 0x10000
               ((v0 - 0xF0) * 262144 + c1 * 4096 + c2 * 64 + c3);
        cons cp <$> decode r3
    | _ => None
    end
  else None.
Proof. done. Qed.

Lemma decode_encode_cp cp bs rest :
  encode_cp cp = Some bs -> decode (bs ++ rest) = cons cp <$> decode rest.
Proof.
  unfold encode_cp, is_surrogate.
  destruct (N.ltb_spec cp 0x80) as [L1|L1].
  { intros [= <-]. simpl app. rewrite decode_cons. cbv zeta.
    rewrite val_of_byte by lia. by case N.ltb_spec; [|lia]. }
  destruct (N.ltb_spec cp 0x800) as [L2|L2].
  { intros [= <-]. simpl app. rewrite decode_cons. cbv zeta.
    rewrite val_of_byte by div_lia.
    repeat (case N.ltb_spec; [try (intros; div_lia)|try (intros; div_lia)]).
    intros _ _ _. rewrite cont_byte by div_lia. simpl.
    replace ((0xC0 + cp / 64 - 0xC0) * 64 + cp mod 64) with cp by div_lia.
    by rewrite scalar_id by lia. }
  destruct (N.ltb_spec cp 0x10000) as [L3|L3].
  { destruct (N.leb_spec 0xD800 cp), (N.leb_spec cp 0xDFFF); simpl;
      try done; intros [= <-]; simpl app; rewrite decode_cons; cbv zeta;
      rewrite val_of_byte by div_lia;
      repeat (case N.ltb_spec; [try (intros; div_lia)|try (intros; div_lia)]);
      intros _ _ _ _; rewrite !cont_byte by div_lia; simpl;
      replace ((0xE0 + cp / 4096 - 0xE0) * 4096 + (cp / 64) mod 64 * 64 +
               cp mod 64) with cp by div_lia;
      by rewrite scalar_id by lia. }
  destruct (N.ltb_spec cp 0x110000) as [L4|L4]; [|done].
  intros [= <-]. simpl app. rewrite decode_cons. cbv zeta.
  rewrite val_of_byte by div_lia.
  repeat (case N.ltb_spec; [try (intros; div_lia)|try (intros; div_lia)]).
  intros _ _ _ _ _. rewrite !cont_byte by div_lia. simpl.
  replace ((0xF0 + cp / 262144 - 0xF0) * 262144 + (cp / 4096) mod 64 * 4096 +
           (cp / 64) mod 64 * 64 + cp mod 64) with cp by div_lia.
  by rewrite scalar_id by lia.
Qed.

(** Encoding is inverted by decoding. *)
Lemma decode_encode (t : list N) (bs : list ascii) :
  encode t = Some bs -> decode bs = Some t.
Proof.
  revert bs; induction t as [|cp t IH]; intros bs H; simpl in H.
  - by injection H as <-.
  - apply bind_Some in H as (b & Hb & H).
    apply bind_Some in H as (r & Hr & [= <-]).
    rewrite (decode_encode_cp _ _ _ Hb), (IH _ Hr). done.
Qed.

Lemma encode_total (t : list N) : Forall encodable t -> is_Some (encode t).
Proof.
  induction 1 as [|cp t [b Hb] _ [r Hr]]; simpl; [done|].
  rewrite Hb, Hr. done.
Qed.

Lemma encode_Forall (t : list N) bs : encode t = Some bs -> Forall encodable t.
Proof.
  revert bs; induction t as [|cp t IH]; intros bs H; [done|]. simpl in H.
  apply bind_Some in H as (b & Hb & H).
  apply bind_Some in H as (r & Hr & _).
  constructor; [by exists b|by eapply IH].
Qed.

Lemma decode_Forall (bs : list ascii) t : decode bs = Some t -> Forall encodable t.
Proof. intros H. by eapply encode_Forall, encode_decode. Qed.

(** An ASCII byte in an encoded text is the encoding of that very
    character: the bytes of longer encodings are all 80 or above. *)
Lemma encode_cp_avoids cp bs a :
  a < 0x80 -> encode_cp cp = Some bs -> cp <> a ->
  Forall (fun b => b <> ascii_of_N a) bs.
Proof.
  intros Ha. unfold encode_cp, is_surrogate.
  assert (forall v, v < 256 -> v <> a -> ascii_of_N v <> ascii_of_N a) as Hne.
  { intros v Hv Hva E. apply (f_equal N_of_ascii) in E.
    rewrite !val_of_byte in E by lia. done. }
  destruct (N.ltb_spec cp 0x80); [intros [= <-] ?; repeat constructor; apply Hne; lia|].
  destruct (N.ltb_spec cp 0x800);
    [intros [= <-] ?; repeat constructor; apply Hne; div_lia|].
  destruct (N.ltb_spec cp 0x10000).
  { destruct ((0xD800 <=? cp) && (cp <=? 0xDFFF)); [done|].
    intros [= <-] ?; repeat constructor; apply Hne; div_lia. }
  destruct (N.ltb_spec cp 0x110000); [|done].
  intros [= <-] ?; repeat constructor; apply Hne; div_lia.
Qed.

Lemma encode_avoids (t : list N) bs a :
  a < 0x80 -> encode t = Some bs -> Forall (fun c => c <> a) t ->
  Forall (fun b => b <> ascii_of_N a) bs.
Proof.
  intros Ha. revert bs. induction t as [|cp t IH]; intros bs H Ht; simpl in H.
  - by injection H as <-.
  - apply bind_Some in H as (b & Hb & H).
    apply bind_Some in H as (r & Hr & [= <-]).
    apply Forall_cons in Ht as [Hcp Ht].
    apply Forall_app. split; [by eapply encode_cp_avoids|by apply IH].
Qed.

(** U+20AC is E2 82 AC; C0 80 is overlong, ED A0 80 a surrogate, E2 82
    truncated, F4 90 80 80 above U+10FFFF. *)
Example decode_euro : decode (map ascii_of_N [0xE2; 0x82; 0xAC]) = Some [0x20AC].
Proof. reflexivity. Qed.

Example decode_rejects :
  decode (map ascii_of_N [0xC0; 0x80]) = None /\
  decode (map ascii_of_N [0xED; 0xA0; 0x80]) = None /\
  decode (map ascii_of_N [0xE2; 0x82]) = None /\
  decode (map ascii_of_N [0xF4; 0x90; 0x80; 0x80]) = None.
Proof. repeat split. Qed.

End Utf8Facts.

(** ** Reading back what was written *)

Module TextIOFacts.
Import StrReplace StrReplaceFacts TextIO.

Lemma plain_LF : plain LF.
Proof. split; [by eexists|done]. Qed.

Lemma universal_newlines_plain (t : list N) :
  Forall Utf8.encodable t -> Forall plain (universal_newlines t).
Proof.
  remember (length t) as k eqn:Hk. revert t Hk.
  induction k as [k IH] using lt_wf_ind. intros t -> Ht.
  destruct Ht as [|c t Hc Ht]; [done|]. cbn [universal_newlines].
  destruct (decide (c = CR)) as [->|Hcr].
  - constructor; [apply plain_LF|].
    destruct Ht as [|c' t' Hc' Ht']; [done|].
    destruct (decide (c' = LF)).
    + eapply IH; [|done..]. simpl. lia.
    + eapply (IH (length (c' :: t'))); [simpl; lia|done|by constructor].
  - constructor; [done|]. eapply IH; [|done..]. simpl. lia.
Qed.

Lemma universal_newlines_id (t : list N) :
  Forall (fun c => c <> CR) t -> universal_newlines t = t.
Proof.
  induction 1 as [|c t Hc _ IH]; [done|]. cbn [universal_newlines].
  destruct (decide (c = CR)); [done|]. by rewrite IH.
Qed.

Lemma translate_out_Posix (t : list N) : translate_out Posix t = t.
Proof. done. Qed.

Lemma translate_out_Windows (t : list N) :
  translate_out Windows t = flat_map (fun c => if decide (c = LF) then [CR; LF] else [c]) t.
Proof.
  unfold translate_out. case_decide; [done|].
  rewrite str_replace_nonempty by done.
  induction t as [|c t IH]; [done|].
  cbn [replace_from starts_with length flat_map]. rewrite <- IH.
  rewrite andb_true_r.
  case_bool_decide; destruct (decide (c = LF)); simplify_eq; done.
Qed.

Lemma translate_out_encodable o (t : list N) :
  Forall Utf8.encodable t -> Forall Utf8.encodable (translate_out o t).
Proof.
  intros Ht. unfold translate_out. case_decide; [done|].
  apply str_replace_Forall; [|done].
  destruct o; repeat constructor; by eexists.
Qed.

Lemma universal_newlines_translate_out o (t : list N) :
  Forall plain t -> universal_newlines (translate_out o t) = t.
Proof.
  intros Ht. destruct o.
  - rewrite translate_out_Posix. apply universal_newlines_id.
    eapply Forall_impl; [done|]. by intros c [_ ?].
  - rewrite translate_out_Windows.
    induction Ht as [|c t [_ Hc] _ IH]; [done|]. cbn [flat_map].
    destruct (decide (c = LF)) as [->|Hlf]; simpl; [by rewrite IH|].
    destruct (decide (c = CR)); [done|]. by rewrite IH.
Qed.

Lemma text_of_bytes_plain (bs : list ascii) (t : list N) :
  text_of_bytes bs = Some t -> Forall plain t.
Proof.
  unfold text_of_bytes. intros (t0 & Ht0 & ->)%fmap_Some.
  by eapply universal_newlines_plain, Utf8Facts.decode_Forall.
Qed.

(** A text without carriage returns can always be written, and reading the
file back returns it, on either platform. *)
Lemma write_then_read o (t : list N) :
  Forall plain t ->
  exists bs, bytes_of_text o t = Some bs /\ text_of_bytes bs = Some t.
Proof.
  intros Ht. unfold bytes_of_text, text_of_bytes.
  destruct (Utf8Facts.encode_total (translate_out o t)) as [bs Hbs].
  { apply translate_out_encodable. eapply Forall_impl; [done|]. by intros c [? _]. }
  exists bs. split; [done|].
  rewrite (Utf8Facts.decode_encode _ _ Hbs). simpl.
  by rewrite universal_newlines_translate_out.
Qed.

(** On a platform whose line separator is LF, a file without carriage
returns is read and written back byte for byte. *)
Lemma read_then_write_Posix (bs : list ascii) (t : list N) :
  Forall (fun b => b <> ascii_of_N CR) bs ->
  text_of_bytes bs = Some t ->
  Utf8.decode bs = Some t /\ bytes_of_text Posix t = Some bs.
Proof.
  unfold text_of_bytes, bytes_of_text. intros Hcr (t0 & Ht0 & ->)%fmap_Some.
  rewrite translate_out_Posix.
  assert (Forall (fun c => c <> CR) t0) as Hno.
  { apply Utf8Facts.encode_decode in Ht0. clear -Hcr Ht0.
    revert bs Hcr Ht0. induction t0 as [|c t0 IH]; intros bs Hcr H; [done|].
    simpl in H. apply bind_Some in H as (b & Hb & H).
    apply bind_Some in H as (r & Hr & [= <-]).
    apply Forall_app in Hcr as [Hcr1 Hcr2].
    constructor; [|by eapply IH].
    intros ->. vm_compute in Hb. injection Hb as <-.
    by inversion Hcr1. }
  rewrite universal_newlines_id by done.
  split; [done|]. by apply Utf8Facts.encode_decode.
Qed.

Example universal_newlines_mixed :
  universal_newlines [97; CR; LF; 98; CR; 99; LF; CR]%N =
  [97; LF; 98; LF; 99; LF; LF]%N.
Proof. reflexivity. Qed.

End TextIOFacts.

(** ** The script's transformation and runs *)

Module PatcherFacts.
Import StrReplace StrReplaceFacts TextIO TextIOFacts Patcher.

(** *** The four literals keep out of one another's way *)

(** No literal can straddle an end of another one, or overlap itself. *)
Lemma literals_apart (p m : list N) :
  p ∈ literals -> m ∈ literals -> apart p m = true.
Proof.
  intros Hp Hm. literal_cases Hp; literal_cases Hm; vm_compute; reflexivity.
Qed.

Lemma literals_plain (p : list N) : p ∈ literals -> Forall plain p.
Proof.
  intros Hp. apply (bool_decide_unpack _).
  literal_cases Hp; vm_compute; exact I.
Qed.

(** *** Occurrences of the literals across the two steps *)

Lemma import_step_count (p t : list N) :
  p ∈ literals ->
  count p (str_replace import_old import_new t) + count import_old t * count p import_old =
  count p t + count import_old t * count p import_new.
Proof.
  intros Hp. apply str_replace_count; apply literals_apart; (done || literal).
Qed.

Lemma usage_step_count (p t : list N) :
  p ∈ literals ->
  count p (str_replace usage_old usage_new t) + count usage_old t * count p usage_old =
  count p t + count usage_old t * count p usage_new.
Proof.
  intros Hp. apply str_replace_count; apply literals_apart; (done || literal).
Qed.

(** The two steps' effect on the number of occurrences of [p]. *)
Lemma steps_count (p t : list N) :
  p ∈ literals ->
  count p (str_replace import_old import_new t) + count import_old t * count p import_old =
    count p t + count import_old t * count p import_new /\
  count p (transform t) +
    count usage_old (str_replace import_old import_new t) * count p usage_old =
    count p (str_replace import_old import_new t) +
    count usage_old (str_replace import_old import_new t) * count p usage_new.
Proof.
  intros Hp. split; [by apply import_step_count|by apply usage_step_count].
Qed.

Lemma transform_count_import_old (t : list N) : count import_old (transform t) = 0.
Proof.
  destruct (steps_count import_old t ltac:(literal)) as [H1 H2].
  literal_count H1 import_old import_old 1.
  literal_count H1 import_old import_new 0.
  literal_count H2 import_old usage_old 0.
  literal_count H2 import_old usage_new 0.
  lia.
Qed.

Lemma transform_count_import_new (t : list N) :
  count import_new (transform t) = count import_new t + count import_old t.
Proof.
  destruct (steps_count import_new t ltac:(literal)) as [H1 H2].
  literal_count H1 import_new import_old 0.
  literal_count H1 import_new import_new 1.
  literal_count H2 import_new usage_old 0.
  literal_count H2 import_new usage_new 0.
  lia.
Qed.

Lemma import_step_count_usage_old (t : list N) :
  count usage_old (str_replace import_old import_new t) = count usage_old t.
Proof.
  pose proof (import_step_count usage_old t ltac:(literal)) as H1.
  literal_count H1 usage_old import_old 0.
  literal_count H1 usage_old import_new 0.
  lia.
Qed.

Lemma transform_count_usage_old (t : list N) : count usage_old (transform t) = 0.
Proof.
  destruct (steps_count usage_old t ltac:(literal)) as [H1 H2].
  literal_count H2 usage_old usage_old 1.
  literal_count H2 usage_old usage_new 0.
  lia.
Qed.

Lemma transform_count_usage_new (t : list N) :
  count usage_new (transform t) = count usage_new t + count usage_old t.
Proof.
  destruct (steps_count usage_new t ltac:(literal)) as [H1 H2].
  literal_count H1 usage_new import_old 0.
  literal_count H1 usage_new import_new 0.
  literal_count H2 usage_new usage_old 0.
  literal_count H2 usage_new usage_new 1.
  rewrite import_step_count_usage_old in H2.
  lia.
Qed.

(** *** Fixed points, idempotence, length *)

Lemma transform_fixed (t : list N) :
  count import_old t = 0 -> count usage_old t = 0 -> transform t = t.
Proof.
  intros H1 H2. unfold transform.
  rewrite (str_replace_absent import_old) by done.
  by rewrite str_replace_absent.
Qed.

Lemma transform_idempotent (t : list N) : transform (transform t) = transform t.
Proof.
  apply transform_fixed;
    [apply transform_count_import_old|apply transform_count_usage_old].
Qed.

Lemma transform_length (t : list N) : length t <= length (transform t).
Proof.
  unfold transform.
  etrans; [|apply str_replace_length; [done|vm_compute; lia]].
  apply str_replace_length; [done|vm_compute; lia].
Qed.

Lemma transform_plain (t : list N) : Forall plain t -> Forall plain (transform t).
Proof.
  intros Ht. unfold transform.
  apply str_replace_Forall; [apply literals_plain; literal|].
  apply str_replace_Forall; [apply literals_plain; literal|done].
Qed.

(** *** The three ways a run can go *)

Lemma run_missing o (fs : gmap string (list ascii)) :
  fs !! path = None -> run o fs = (inr FileNotFoundError, World o fs []).
Proof.
  intros H. unfold run, main, mbind, Py_bind, read_file. simpl. by rewrite H.
Qed.

Lemma run_undecodable o (fs : gmap string (list ascii)) bs :
  fs !! path = Some bs -> text_of_bytes bs = None ->
  run o fs = (inr UnicodeDecodeError, World o fs []).
Proof.
  intros H Hbs. unfold run, main, mbind, Py_bind, read_file. simpl.
  by rewrite H, Hbs.
Qed.

Lemma run_patched o (fs : gmap string (list ascii)) bs t :
  fs !! path = Some bs -> text_of_bytes bs = Some t ->
  exists bs',
    bytes_of_text o (transform t) = Some bs' /\
    text_of_bytes bs' = Some (transform t) /\
    run o fs = (inl tt, World o (<[path := bs']> fs) (message ++ [LF])).
Proof.
  intros H Hbs.
  destruct (write_then_read o (transform t)) as (bs' & Hw & Hr).
  { by eapply transform_plain, text_of_bytes_plain. }
  exists bs'. repeat split; [done..|].
  unfold run, main, mbind, Py_bind, read_file, write_file, print, set_file.
  cbn [os files stdout]. rewrite H, Hbs. cbn [os files stdout]. by rewrite Hw.
Qed.

Lemma literal_nonempty (p : list N) : p ∈ literals -> p <> [].
Proof.
  intros Hp ->. by pose proof (literals_apart [] [] Hp Hp).
Qed.

(** A second run finds the file as the first run left it. *)
Lemma rerun_files o (fs : gmap string (list ascii)) :
  files (run o (files (run o fs).2)).2 = files (run o fs).2.
Proof.
  destruct (fs !! path) as [bs|] eqn:Hfs.
  - destruct (text_of_bytes bs) as [t|] eqn:Hbs.
    + destruct (run_patched o fs bs t Hfs Hbs) as (bs1 & Hw1 & Hr1 & ->). simpl.
      destruct (run_patched o (<[path := bs1]> fs) bs1 (transform t))
        as (bs2 & Hw2 & _ & ->); [apply lookup_insert_eq|done|].
      rewrite transform_idempotent, Hw1 in Hw2. injection Hw2 as <-.
      simpl. apply insert_insert_eq.
    + rewrite (run_undecodable o fs bs Hfs Hbs). simpl.
      by rewrite (run_undecodable o fs bs Hfs Hbs).
  - rewrite (run_missing o fs Hfs). simpl. by rewrite (run_missing o fs Hfs).
Qed.

(** ** Properties of the patcher *)

(** C1: the transformation is the import rule followed by the usage rule.
    The text [transform] returns is the one and only text obtained by
    replacing, leftmost first, every non-overlapping occurrence of the import
    literal and then doing the same with the usage literal in the result;
    either step leaves a text without its search literal as it is; and the
    second step is applied to whatever the first one returns. *)
Theorem transform_two_rules (t : list N) :
  transform t =
    str_replace usage_old usage_new (str_replace import_old import_new t) /\
  (forall r,
     (exists n1 n2 t1,
        ReplacedAll import_old import_new t n1 t1 /\
        ReplacedAll usage_old usage_new t1 n2 r) <->
     r = transform t) /\
  (forall u, (forall i, ~ occurs_at import_old u i) ->
             str_replace import_old import_new u = u) /\
  (forall u, (forall i, ~ occurs_at usage_old u i) ->
             str_replace usage_old usage_new u = u).
Proof.
  assert (import_old <> []) as Hi by (apply literal_nonempty; literal).
  assert (usage_old <> []) as Hu by (apply literal_nonempty; literal).
  split; [done|]. split; [|split].
  - intros r. split.
    + intros (n1 & n2 & t1 & H1 & H2).
      apply ReplacedAll_str_replace in H1 as ->; [|done].
      by apply ReplacedAll_str_replace in H2 as ->.
    + intros ->.
      destruct (str_replace_spec import_old import_new t Hi) as [n1 H1].
      destruct (str_replace_spec usage_old usage_new
                  (str_replace import_old import_new t) Hu) as [n2 H2].
      by exists n1, n2, (str_replace import_old import_new t).
  - intros u H. by apply str_replace_absent, count_zero_iff.
  - intros u H. by apply str_replace_absent, count_zero_iff.
Qed.

(** C2, as stated, fails on [both_imports]: the file holds the old import
    line once and already holds the new one, so after the run the new import
    line is there twice, not once. *)
Lemma import_once_fails_with_both_imports :
  ~ (forall bs t,
       file_of both_imports !! path = Some bs ->
       text_of_bytes bs = Some t ->
       count import_old t = 1 ->
       exists bs' t',
         files (run Posix (file_of both_imports)).2 !! path = Some bs' /\
         text_of_bytes bs' = Some t' /\
         count import_new t' = 1 /\ count import_old t' = 0).
Proof.
  intros H.
  destruct (H (list_ascii_of_string both_imports) (text_of_string both_imports))
    as (bs' & t' & Hbs' & Ht' & Hnew & _); [vm_compute; reflexivity..|].
  vm_compute in Hbs'. injection Hbs' as <-.
  vm_compute in Ht'. injection Ht' as <-.
  vm_compute in Hnew. discriminate.
Qed.

(** The same on the bytes of the file: the old import line is there once
    before the run, the new one twice after it. *)
Example both_imports_run :
  count (list_ascii_of_string Literals.import_old)
        (list_ascii_of_string both_imports) = 1 /\
  exists bs',
    files (run Posix (file_of both_imports)).2 !! path = Some bs' /\
    count (list_ascii_of_string Literals.import_new) bs' = 2.
Proof. split; [|eexists; split]; vm_compute; reflexivity. Qed.

(** C2, amended: when the text of the file holds the old import line exactly
    once and does not hold the new import line yet, the file holds the new
    import line exactly once after the run, and the old one no more. *)
Theorem import_once o (fs : gmap string (list ascii)) bs t :
  fs !! path = Some bs ->
  text_of_bytes bs = Some t ->
  count import_old t = 1 ->
  count import_new t = 0 ->
  exists bs' t',
    files (run o fs).2 !! path = Some bs' /\
    text_of_bytes bs' = Some t' /\
    count import_new t' = 1 /\ count import_old t' = 0.
Proof.
  intros Hfs Hbs Hold Hnew.
  destruct (run_patched o fs bs t Hfs Hbs) as (bs' & _ & Hr & ->).
  exists bs', (transform t). cbn [fst snd files stdout]. rewrite lookup_insert_eq.
  rewrite transform_count_import_new, transform_count_import_old.
  repeat split; (done || lia).
Qed.

(** The theorem at work on the unpatched file. *)
Lemma import_once_witness :
  file_of unpatched !! path = Some (list_ascii_of_string unpatched) /\
  exists bs' t',
    files (run Posix (file_of unpatched)).2 !! path = Some bs' /\
    text_of_bytes bs' = Some t' /\
    count import_new t' = 1 /\ count import_old t' = 0.
Proof.
  split; [vm_compute; reflexivity|].
  apply (import_once Posix (file_of unpatched)
           (list_ascii_of_string unpatched) (text_of_string unpatched));
    vm_compute; reflexivity.
Defined.

(** C3, as stated, fails on [both_usages]: the file holds the old usage
    block once and a patched block as well, so after the run the new usage
    block is there twice. *)
Lemma usage_once_fails_with_both_usages :
  ~ (forall bs t,
       file_of both_usages !! path = Some bs ->
       text_of_bytes bs = Some t ->
       count usage_old t = 1 ->
       exists bs' t',
         files (run Posix (file_of both_usages)).2 !! path = Some bs' /\
         text_of_bytes bs' = Some t' /\
         count usage_new t' = 1).
Proof.
  intros H.
  destruct (H (list_ascii_of_string both_usages) (text_of_string both_usages))
    as (bs' & t' & Hbs' & Ht' & Hnew); [vm_compute; reflexivity..|].
  vm_compute in Hbs'. injection Hbs' as <-.
  vm_compute in Ht'. injection Ht' as <-.
  vm_compute in Hnew. discriminate.
Qed.

(** The same on the bytes of the file. *)
Example both_usages_run :
  count (list_ascii_of_string Literals.usage_old)
        (list_ascii_of_string both_usages) = 1 /\
  exists bs',
    files (run Posix (file_of both_usages)).2 !! path = Some bs' /\
    count (list_ascii_of_string Literals.usage_new) bs' = 2.
Proof. split; [|eexists; split]; vm_compute; reflexivity. Qed.

(** C3, amended: when the text of the file holds the old usage block exactly
    once and does not hold the new usage block yet, the file holds the new
    usage block exactly once after the run. *)
Theorem usage_once o (fs : gmap string (list ascii)) bs t :
  fs !! path = Some bs ->
  text_of_bytes bs = Some t ->
  count usage_old t = 1 ->
  count usage_new t = 0 ->
  exists bs' t',
    files (run o fs).2 !! path = Some bs' /\
    text_of_bytes bs' = Some t' /\
    count usage_new t' = 1.
Proof.
  intros Hfs Hbs Hold Hnew.
  destruct (run_patched o fs bs t Hfs Hbs) as (bs' & _ & Hr & ->).
  exists bs', (transform t). cbn [fst snd files stdout]. rewrite lookup_insert_eq.
  rewrite transform_count_usage_new.
  repeat split; (done || lia).
Qed.

(** The theorem at work on the unpatched file, where the line separator is
    CR LF. *)
Lemma usage_once_witness :
  file_of unpatched !! path = Some (list_ascii_of_string unpatched) /\
  exists bs' t',
    files (run Windows (file_of unpatched)).2 !! path = Some bs' /\
    text_of_bytes bs' = Some t' /\
    count usage_new t' = 1.
Proof.
  split; [vm_compute; reflexivity|].
  apply (usage_once Windows (file_of unpatched)
           (list_ascii_of_string unpatched) (text_of_string unpatched));
    vm_compute; reflexivity.
Defined.

(** C4, as stated, fails on [crlf_note]: neither literal is in the file,
    the run succeeds, but reading turned CR LF into LF and the file written
    on a platform whose line separator is LF is one byte shorter. *)
Lemma unchanged_fails_with_crlf :
  ~ (forall bs t,
       file_of crlf_note !! path = Some bs ->
       text_of_bytes bs = Some t ->
       count import_old t = 0 ->
       count usage_old t = 0 ->
       files (run Posix (file_of crlf_note)).2 !! path = Some bs /\
       stdout (run Posix (file_of crlf_note)).2 = message ++ [LF]).
Proof.
  intros H.
  destruct (H (list_ascii_of_string crlf_note) (text_of_string lf_note))
    as [Hbs _]; [vm_compute; reflexivity..|].
  vm_compute in Hbs. discriminate.
Qed.

(** What the run does write for [crlf_note]: the bytes of [lf_note]. *)
Example crlf_note_run :
  files (run Posix (file_of crlf_note)).2 !! path =
    Some (list_ascii_of_string lf_note).
Proof. vm_compute. reflexivity. Qed.

(** C4, amended: when the file decodes as UTF-8 and its text holds neither
    search literal, both replacement steps are no-ops, the run ends normally,
    the success line is all that is printed, and the text of the file is what
    it was; the bytes are what they were exactly when they are what the
    platform writes for that text, which is so when the file has no carriage
    return and the platform's line separator is LF. *)
Theorem unchanged_without_literals o (fs : gmap string (list ascii)) bs t :
  fs !! path = Some bs ->
  text_of_bytes bs = Some t ->
  count import_old t = 0 ->
  count usage_old t = 0 ->
  str_replace import_old import_new t = t /\
  str_replace usage_old usage_new t = t /\
  (run o fs).1 = inl tt /\
  stdout (run o fs).2 = message ++ [LF] /\
  (exists bs', files (run o fs).2 = <[path := bs']> fs /\
               text_of_bytes bs' = Some t) /\
  (files (run o fs).2 = fs <-> bytes_of_text o t = Some bs) /\
  (o = Posix -> Forall (fun b => b <> ascii_of_N CR) bs ->
   files (run o fs).2 = fs).
Proof.
  intros Hfs Hbs H1 H2.
  destruct (run_patched o fs bs t Hfs Hbs) as (bs' & Hw & Hr & ->).
  rewrite transform_fixed in Hw, Hr by done. cbn [fst snd files stdout].
  split; [by apply str_replace_absent|].
  split; [by apply str_replace_absent|].
  do 2 (split; [done|]). split; [by exists bs'|].
  assert (bytes_of_text o t = Some bs -> <[path := bs']> fs = fs) as Hsame.
  { rewrite Hw. intros [= ->]. by apply insert_id. }
  split; [split; [|done]|].
  - intros E. rewrite <- E, lookup_insert_eq in Hfs. by rewrite Hw, Hfs.
  - intros -> Hcr. apply Hsame.
    by destruct (read_then_write_Posix bs t Hcr Hbs) as [_ Hw'].
Qed.

(** The theorem at work on [lf_note]: nothing changes, one line is
    printed. *)
Lemma unchanged_without_literals_witness :
  file_of lf_note !! path = Some (list_ascii_of_string lf_note) /\
  files (run Posix (file_of lf_note)).2 = file_of lf_note /\
  stdout (run Posix (file_of lf_note)).2 = message ++ [LF].
Proof.
  split; [vm_compute; reflexivity|].
  destruct (unchanged_without_literals Posix (file_of lf_note)
              (list_ascii_of_string lf_note) (text_of_string lf_note))
    as (_ & _ & _ & Hout & _ & _ & Hsame); [vm_compute; reflexivity..|].
  split; [|exact Hout].
  apply Hsame; [reflexivity|].
  apply (bool_decide_unpack _). vm_compute. exact I.
Defined.

(** C5: when the text of the file holds both search literals, a second run
    right after the first ends normally and leaves the file exactly as the
    first run left it; both of its replacement steps are no-ops on the text it
    reads. *)
Theorem second_run_changes_nothing o (fs : gmap string (list ascii)) bs t :
  fs !! path = Some bs ->
  text_of_bytes bs = Some t ->
  0 < count import_old t ->
  0 < count usage_old t ->
  exists bs1 t1,
    files (run o fs).2 !! path = Some bs1 /\
    text_of_bytes bs1 = Some t1 /\
    str_replace import_old import_new t1 = t1 /\
    str_replace usage_old usage_new t1 = t1 /\
    (run o (files (run o fs).2)).1 = inl tt /\
    files (run o (files (run o fs).2)).2 = files (run o fs).2.
Proof.
  intros Hfs Hbs _ _.
  pose proof (rerun_files o fs) as Hre.
  destruct (run_patched o fs bs t Hfs Hbs) as (bs1 & Hw1 & Hr1 & E).
  rewrite E in Hre |- *. cbn [fst snd files stdout] in Hre |- *.
  exists bs1, (transform t). rewrite lookup_insert_eq.
  split; [done|]. split; [done|].
  split; [apply str_replace_absent, transform_count_import_old|].
  split; [apply str_replace_absent, transform_count_usage_old|].
  split; [|done].
  by destruct (run_patched o (<[path := bs1]> fs) bs1 (transform t))
    as (bs2 & _ & _ & ->); [apply lookup_insert_eq|done|].
Qed.

(** The theorem at work on the unpatched file. *)
Lemma second_run_changes_nothing_witness :
  file_of unpatched !! path = Some (list_ascii_of_string unpatched) /\
  exists bs1 t1,
    files (run Posix (file_of unpatched)).2 !! path = Some bs1 /\
    text_of_bytes bs1 = Some t1 /\
    str_replace import_old import_new t1 = t1 /\
    str_replace usage_old usage_new t1 = t1 /\
    (run Posix (files (run Posix (file_of unpatched)).2)).1 = inl tt /\
    files (run Posix (files (run Posix (file_of unpatched)).2)).2 =
      files (run Posix (file_of unpatched)).2.
Proof.
  split; [vm_compute; reflexivity|].
  apply (second_run_changes_nothing Posix (file_of unpatched)
           (list_ascii_of_string unpatched) (text_of_string unpatched));
    vm_compute; (reflexivity || lia).
Defined.




(** What the run does write for [scenario]: the new import line, and the
    rest as it was. *)
Example scenario_run :
  files (run Posix (file_of scenario)).2 !! path =
    Some (list_ascii_of_string
            (Literals.import_new ++ dots ++ Literals.url_line)%string).
Proof. vm_compute. reflexivity. Qed.



(** C7: when there is no file at the target path, reading raises
    [FileNotFoundError], which nothing catches: the run ends with a non-zero
    exit status, nothing is printed, the files are as they were, and there is
    still no file at the target path. *)
Theorem run_without_target o (fs : gmap string (list ascii)) :
  fs !! path = None ->
  read_file path (World o fs []) = (inr FileNotFoundError, World o fs []) /\
  (run o fs).1 = inr FileNotFoundError /\
  exit_code (run o fs).1 <> 0%N /\
  stdout (run o fs).2 = [] /\
  files (run o fs).2 = fs /\
  files (run o fs).2 !! path = None.
Proof.
  intros Hfs. rewrite (run_missing o fs Hfs). cbn [fst snd files stdout].
  repeat split; try done.
  unfold read_file. cbn [files]. by rewrite Hfs.
Qed.

(** The theorem at work on an empty file system. *)
Lemma run_without_target_witness :
  (∅ : gmap string (list ascii)) !! path = None /\
  (run Posix ∅).1 = inr FileNotFoundError /\
  exit_code (run Posix ∅).1 <> 0%N /\
  stdout (run Posix ∅).2 = [] /\
  files (run Posix ∅).2 !! path = None.
Proof.
  split; [reflexivity|].
  destruct (run_without_target Posix ∅) as (_ & H1 & H2 & H3 & _ & H4);
    [reflexivity|].
  exact (conj H1 (conj H2 (conj H3 H4))).
Defined.

(** C8, as stated, fails: no text is changed by applying the two steps a
    second time. *)
Lemma no_text_changes_twice :
  ~ (exists t : list N, transform (transform t) <> transform t).
Proof.
  intros [t H]. apply H, transform_idempotent.
Qed.

(** C8, amended: re-running the patcher is idempotent on every input.  The
    two steps applied twice give the text they give applied once, because
    neither search literal is left after the first time; and a second run
    leaves every file as the first run left it. *)
Theorem rerun_idempotent :
  (forall t : list N,
     count import_old (transform t) = 0 /\
     count usage_old (transform t) = 0 /\
     transform (transform t) = transform t) /\
  (forall o (fs : gmap string (list ascii)),
     files (run o (files (run o fs).2)).2 = files (run o fs).2).
Proof.
  split.
  - intros t. split; [apply transform_count_import_old|].
    split; [apply transform_count_usage_old|apply transform_idempotent].
  - apply rerun_files.
Qed.

Lemma run_outcome o (fs : gmap string (list ascii)) :
  (run o fs).1 =
    match fs !! path ≫= text_of_bytes with
    | Some _ => inl tt
    | None =>
        match fs !! path with
        | Some _ => inr UnicodeDecodeError
        | None => inr FileNotFoundError
        end
    end /\
  stdout (run o fs).2 =
    match fs !! path ≫= text_of_bytes with
    | Some _ => message ++ [LF]
    | None => []
    end /\
  files (run o fs).2 !! path =
    match fs !! path ≫= text_of_bytes with
    | Some t => bytes_of_text o (transform t)
    | None => fs !! path
    end /\
  target_text (run o fs).2 =
    match fs !! path ≫= text_of_bytes with
    | Some t => Some (transform t)
    | None => None
    end.
Proof.
  unfold target_text. destruct (fs !! path) as [bs|] eqn:Hfs.
  - destruct (text_of_bytes bs) as [t|] eqn:Hbs.
    + destruct (run_patched o fs bs t Hfs Hbs) as (bs' & Hw & Hr & ->).
      cbn [fst snd files stdout mbind option_bind]. rewrite Hbs.
      by rewrite lookup_insert_eq, Hw.
    + rewrite (run_undecodable o fs bs Hfs Hbs).
      cbn [fst snd files stdout mbind option_bind]. by rewrite Hfs, Hbs.
  - rewrite (run_missing o fs Hfs).
    cbn [fst snd files stdout mbind option_bind]. by rewrite Hfs.
Qed.

(** C9: two runs that find the same content at the target path end the same
    way, print the same text and leave the same content there, whatever else
    the two file systems hold.  On two platforms the text written is still
    the same; the bytes are the same on one platform. *)
Theorem run_deterministic o1 o2 (fs1 fs2 : gmap string (list ascii)) :
  fs1 !! path = fs2 !! path ->
  (run o1 fs1).1 = (run o2 fs2).1 /\
  stdout (run o1 fs1).2 = stdout (run o2 fs2).2 /\
  target_text (run o1 fs1).2 = target_text (run o2 fs2).2 /\
  (o1 = o2 -> files (run o1 fs1).2 !! path = files (run o2 fs2).2 !! path).
Proof.
  intros Hfs.
  destruct (run_outcome o1 fs1) as (-> & -> & Hf1 & ->).
  destruct (run_outcome o2 fs2) as (-> & -> & Hf2 & ->).
  rewrite Hfs. repeat split; try done.
  intros ->. by rewrite Hf1, Hf2, Hfs.
Qed.

(** The theorem at work on the unpatched file, alone and beside another
    file. *)
Lemma run_deterministic_witness :
  file_of unpatched !! path =
    (<["README.md" := []]> (file_of unpatched)) !! path /\
  (run Posix (file_of unpatched)).1 =
    (run Posix (<["README.md" := []]> (file_of unpatched))).1 /\
  stdout (run Posix (file_of unpatched)).2 =
    stdout (run Posix (<["README.md" := []]> (file_of unpatched))).2 /\
  files (run Posix (file_of unpatched)).2 !! path =
    files (run Posix (<["README.md" := []]> (file_of unpatched))).2 !! path.
Proof.
  split; [vm_compute; reflexivity|].
  destruct (run_deterministic Posix Posix (file_of unpatched)
              (<["README.md" := []]> (file_of unpatched)))
    as (H1 & H2 & _ & H3); [vm_compute; reflexivity|].
  exact (conj H1 (conj H2 (H3 eq_refl))).
Defined.

(** C10: the text written is never shorter than the text read: each
    replacement literal is at least as long as its search literal, so neither
    step shortens a text. *)
Theorem output_not_shorter :
  length import_old <= length import_new /\
  length usage_old <= length usage_new /\
  (forall t : list N,
     length t <= length (str_replace import_old import_new t) /\
     length t <= length (str_replace usage_old usage_new t) /\
     length t <= length (transform t)) /\
  (forall o (fs : gmap string (list ascii)) bs t,
     fs !! path = Some bs -> text_of_bytes bs = Some t ->
     exists t', target_text (run o fs).2 = Some t' /\ length t <= length t').
Proof.
  split; [vm_compute; lia|]. split; [vm_compute; lia|]. split.
  - intros t. split; [|split; [|apply transform_length]];
      (apply str_replace_length;
       [apply literal_nonempty; literal|vm_compute; lia]).
  - intros o fs bs t Hfs Hbs.
    destruct (run_outcome o fs) as (_ & _ & _ & ->).
    rewrite Hfs. cbn [mbind option_bind]. rewrite Hbs.
    exists (transform t). split; [done|apply transform_length].
Qed.

(** ** Further properties of the script *)

(** *** What a run touches *)

(** X1: a run reads and writes the target path only: every other file is as
    it was, and a file is at the target path after the run exactly when one
    was there before (the script neither creates nor removes it). *)
Theorem run_touches_only_target o (fs : gmap string (list ascii)) :
  delete path (files (run o fs).2) = delete path fs /\
  (forall q, q <> path -> files (run o fs).2 !! q = fs !! q) /\
  (is_Some (files (run o fs).2 !! path) <-> is_Some (fs !! path)).
Proof.
  destruct (fs !! path) as [bs|] eqn:Hfs.
  - destruct (text_of_bytes bs) as [t|] eqn:Hbs.
    + destruct (run_patched o fs bs t Hfs Hbs) as (bs' & _ & _ & ->).
      cbn [fst snd files]. split; [apply delete_insert_eq|]. split.
      * intros q Hq. by apply lookup_insert_ne.
      * rewrite lookup_insert_eq. split; by eexists.
    + rewrite (run_undecodable o fs bs Hfs Hbs). cbn [fst snd files].
      by rewrite Hfs.
  - rewrite (run_missing o fs Hfs). cbn [fst snd files]. by rewrite Hfs.
Qed.

(** X2: when the target file is not valid UTF-8, reading raises
    [UnicodeDecodeError]: the run ends with a non-zero exit status, prints
    nothing and leaves every file, the target included, as it was. *)
Theorem run_on_undecodable o (fs : gmap string (list ascii)) bs :
  fs !! path = Some bs ->
  Utf8.decode bs = None ->
  (run o fs).1 = inr UnicodeDecodeError /\
  exit_code (run o fs).1 <> 0%N /\
  stdout (run o fs).2 = [] /\
  files (run o fs).2 = fs.
Proof.
  intros Hfs Hbs. rewrite (run_undecodable o fs bs Hfs).
  - by cbn [fst snd files stdout].
  - unfold text_of_bytes. by rewrite Hbs.
Qed.

(** The theorem at work on [latin1_note]. *)
Lemma run_on_undecodable_witness :
  file_of latin1_note !! path = Some (list_ascii_of_string latin1_note) /\
  (run Posix (file_of latin1_note)).1 = inr UnicodeDecodeError /\
  files (run Posix (file_of latin1_note)).2 = file_of latin1_note.
Proof.
  split; [vm_compute; reflexivity|].
  destruct (run_on_undecodable Posix (file_of latin1_note)
              (list_ascii_of_string latin1_note))
    as (H1 & _ & _ & H2); [vm_compute; reflexivity..|].
  exact (conj H1 H2).
Defined.


(** X9: after a run on a readable file, what a later read of the target
    returns is the transformed text of what was read, whatever the platform's
    line separator: the bytes written decode, and their line ends translate
    back, to the very text that was written. *)
Theorem run_writes_transform o (fs : gmap string (list ascii)) bs t :
  fs !! path = Some bs ->
  text_of_bytes bs = Some t ->
  (run o fs).1 = inl tt /\
  target_text (run o fs).2 = Some (transform t).
Proof.
  intros Hfs Hbs.
  destruct (run_patched o fs bs t Hfs Hbs) as (bs' & _ & Hr & ->).
  unfold target_text. cbn [fst snd files]. by rewrite lookup_insert_eq.
Qed.

(** The theorem at work on the unpatched file, where the line separator is
    CR LF. *)
Lemma run_writes_transform_witness :
  file_of unpatched !! path = Some (list_ascii_of_string unpatched) /\
  target_text (run Windows (file_of unpatched)).2 =
    Some (transform (text_of_string unpatched)).
Proof.
  split; [vm_compute; reflexivity|].
  apply (run_writes_transform Windows (file_of unpatched)
           (list_ascii_of_string unpatched) (text_of_string unpatched));
    vm_compute; reflexivity.
Defined.

(** X8: on a platform whose line separator is LF, the file a run writes has
    no carriage return, whatever line ends the file had: its bytes are the
    UTF-8 encoding of the transformed text, line ends as LF. *)
Theorem posix_run_writes_no_carriage_return
    (fs : gmap string (list ascii)) bs t :
  fs !! path = Some bs ->
  text_of_bytes bs = Some t ->
  exists bs',
    files (run Posix fs).2 !! path = Some bs' /\
    Utf8.encode (transform t) = Some bs' /\
    Forall (fun b => b <> ascii_of_N CR) bs'.
Proof.
  intros Hfs Hbs.
  destruct (run_patched Posix fs bs t Hfs Hbs) as (bs' & Hw & _ & ->).
  exists bs'. cbn [fst snd files]. rewrite lookup_insert_eq.
  unfold bytes_of_text in Hw. rewrite translate_out_Posix in Hw.
  repeat split; [done|].
  eapply (Utf8Facts.encode_avoids _ _ CR); [done|done|].
  eapply Forall_impl; [by eapply transform_plain, text_of_bytes_plain|].
  by intros c [_ ?].
Qed.

(** The theorem at work on [crlf_note]. *)
Lemma posix_run_writes_no_carriage_return_witness :
  file_of crlf_note !! path = Some (list_ascii_of_string crlf_note) /\
  exists bs',
    files (run Posix (file_of crlf_note)).2 !! path = Some bs' /\
    Utf8.encode (transform (text_of_string lf_note)) = Some bs' /\
    Forall (fun b => b <> ascii_of_N CR) bs'.
Proof.
  split; [vm_compute; reflexivity|].
  apply (posix_run_writes_no_carriage_return (file_of crlf_note)
           (list_ascii_of_string crlf_note) (text_of_string lf_note));
    vm_compute; reflexivity.
Defined.

(** *** What the two steps do to a text *)

(** X4: after a run on a readable file neither search literal is left in
    its text, and each replacement literal is there as often as it and its
    search literal were there together before: every occurrence is replaced,
    none is added or lost otherwise. *)
Theorem run_counts o (fs : gmap string (list ascii)) bs t :
  fs !! path = Some bs ->
  text_of_bytes bs = Some t ->
  exists t',
    target_text (run o fs).2 = Some t' /\
    count import_old t' = 0 /\
    count usage_old t' = 0 /\
    count import_new t' = count import_new t + count import_old t /\
    count usage_new t' = count usage_new t + count usage_old t.
Proof.
  intros Hfs Hbs.
  destruct (run_patched o fs bs t Hfs Hbs) as (bs' & _ & Hr & ->).
  exists (transform t). unfold target_text. cbn [fst snd files].
  rewrite lookup_insert_eq. split; [done|].
  split; [apply transform_count_import_old|].
  split; [apply transform_count_usage_old|].
  split; [apply transform_count_import_new|apply transform_count_usage_new].
Qed.

(** The theorem at work on [both_imports]. *)
Lemma run_counts_witness :
  file_of both_imports !! path = Some (list_ascii_of_string both_imports) /\
  exists t',
    target_text (run Posix (file_of both_imports)).2 = Some t' /\
    count import_old t' = 0 /\
    count usage_old t' = 0 /\
    count import_new t' =
      count import_new (text_of_string both_imports) +
      count import_old (text_of_string both_imports) /\
    count usage_new t' =
      count usage_new (text_of_string both_imports) +
      count usage_old (text_of_string both_imports).
Proof.
  split; [vm_compute; reflexivity|].
  apply (run_counts Posix (file_of both_imports)
           (list_ascii_of_string both_imports) (text_of_string both_imports));
    vm_compute; reflexivity.
Defined.

Lemma import_step_growth (t : list N) :
  length (str_replace import_old import_new t) =
  length t + 3 * count import_old t.
Proof.
  pose proof (str_replace_length_exact import_old import_new t
                (literals_apart _ _ ltac:(literal) ltac:(literal))) as H.
  replace (length import_old) with 50 in H by (vm_compute; reflexivity).
  replace (length import_new) with 53 in H by (vm_compute; reflexivity).
  lia.
Qed.

Lemma usage_step_growth (t : list N) :
  length (str_replace usage_old usage_new t) =
  length t + 44 * count usage_old t.
Proof.
  pose proof (str_replace_length_exact usage_old usage_new t
                (literals_apart _ _ ltac:(literal) ltac:(literal))) as H.
  replace (length usage_old) with 178 in H by (vm_compute; reflexivity).
  replace (length usage_new) with 222 in H by (vm_compute; reflexivity).
  lia.
Qed.

Lemma transform_growth (t : list N) :
  length (transform t) =
  length t + 3 * count import_old t + 44 * count usage_old t.
Proof.
  unfold transform.
  rewrite usage_step_growth, import_step_growth, import_step_count_usage_old.
  lia.
Qed.

(** X5: the text grows by exactly 3 characters for each occurrence of the
    import literal and 44 for each occurrence of the usage literal; it never
    shrinks and never grows otherwise. *)
Theorem transform_length_exact (t : list N) :
  length (str_replace import_old import_new t) =
    length t + 3 * count import_old t /\
  length (str_replace usage_old usage_new t) =
    length t + 44 * count usage_old t /\
  length (transform t) =
    length t + 3 * count import_old t + 44 * count usage_old t.
Proof.
  split; [apply import_step_growth|].
  split; [apply usage_step_growth|apply transform_growth].
Qed.

(** X7: the two steps leave a text as it is exactly when neither search
    literal occurs in it. *)
Theorem transform_fixed_iff (t : list N) :
  transform t = t <-> count import_old t = 0 /\ count usage_old t = 0.
Proof.
  split.
  - intros E. pose proof (transform_growth t) as H. rewrite E in H. lia.
  - intros [H1 H2]. by apply transform_fixed.
Qed.

(** X6: the order of the two steps does not matter: replacing the usage
    literal first and the import literal second gives the text the script
    computes. *)
Theorem steps_commute (t : list N) :
  str_replace import_old import_new (str_replace usage_old usage_new t) =
  transform t.
Proof.
  unfold transform.
  assert (apart import_old import_old = true) as Hii
    by (apply literals_apart; literal).
  assert (apart usage_old usage_old = true) as Huu
    by (apply literals_apart; literal).
  remember (length t) as k eqn:Hk. revert t Hk.
  induction k as [k IH] using lt_wf_ind. intros t ->.
  destruct (first_occurrence import_old t) as [Ht|(pre & post & -> & Ht)].
  - apply count_zero_iff in Ht.
    rewrite (str_replace_absent import_old import_new t) by done.
    apply str_replace_absent.
    pose proof (usage_step_count import_old t ltac:(literal)) as H.
    literal_count H import_old usage_old 0.
    literal_count H import_old usage_new 0.
    lia.
  - apply count_before_first in Ht; [|apply literal_nonempty; literal].
    rewrite (str_replace_at_first import_old import_new pre post) by done.
    rewrite (str_replace_app3 usage_old usage_new import_new);
      [|done|apply literals_apart; literal|by vm_compute].
    rewrite (str_replace_app3 usage_old usage_new import_old);
      [|done|apply literals_apart; literal|by vm_compute].
    rewrite str_replace_at_first; [|done|].
    + do 2 f_equal. apply (IH (length post)); [|done].
      rewrite !length_app. assert (length import_old = 50) as ->
        by (vm_compute; reflexivity). lia.
    + pose proof (usage_step_count import_old pre ltac:(literal)) as H.
      literal_count H import_old usage_old 0.
      literal_count H import_old usage_new 0.
      lia.
Qed.

End PatcherFacts.
